(** * The Abelian Lie conformal algebra constructor

    A shallow embedding of
    [sage/algebras/lie_conformal_algebras/abelian_lie_conformal_algebra.py]:
    the class [AbelianLieConformalAlgebra] with its two methods [__init__]
    and [_repr_].

    The class is a thin layer over two collaborators that live elsewhere in
    the library: the function [standardize_names_index_set] and the base
    class constructor [GradedLieConformalAlgebra.__init__].  The embedding
    keeps them apart from the code of the class: [__init__] is a program
    over a signature of calls, and a [Framework] says what the calls do. *)

From Stdlib Require Import ZArith Qcanon.
From stdpp Require Import gmap strings list pretty numbers fin_sets.

Open Scope Z_scope.

(** ** Python values used by the class *)

(** The [names] argument: a [str] or a tuple of [str] ([None] is the
    [option] around it). *)
Inductive names_arg : Type :=
  | NameStr (s : string)
  | NameTuple (l : list string).

Global Instance names_arg_eq_dec : EqDecision names_arg.
Proof. solve_decision. Defined.

(** [x is None]. *)
Definition is_None {A : Type} (x : option A) : bool :=
  match x with None => true | Some _ => false end.

(** [range(n)] for an integer [n]: empty when [n <= 0]. *)
Definition range (n : Z) : list Z := seqZ 0 n.

(** [r'a_{%d}' % i]. *)
Definition latex_label (i : Z) : string := "a_{" +:+ pretty i +:+ "}".

(** [", ".join(xs)]. *)
Fixpoint join (sep : string) (xs : list string) : string :=
  match xs with
  | [] => ""
  | [x] => x
  | x :: rest => x +:+ sep +:+ join sep rest
  end.

(** [str] of a tuple whose items have the given [repr]s: a one-item tuple
    keeps its trailing comma. *)
Definition tuple_repr (xs : list string) : string :=
  match xs with
  | [x] => "(" +:+ x +:+ ",)"
  | _ => "(" +:+ join ", " xs +:+ ")"
  end.

(** ** The surrounding library *)

(** What the class takes from the rest of the library.  [Base] is the part
    of an instance that the base classes own, [uninit] its value on a
    freshly allocated instance.  [scoeff] is the type of the values of a
    structure-coefficient dictionary, whose keys are pairs of generators. *)
Class Framework : Type := {
  Ring : Type;
  IndexSet : Type;
  Names : Type;
  Exn : Type;
  Element : Type;
  scoeff : Type;
  Base : Type;
  uninit : Base;
  (** [standardize_names_index_set(names=, index_set=, ngens=)] *)
  standardize_names_index_set :
    option names_arg → option IndexSet → Z → Exn + (Names * IndexSet);
  (** [GradedLieConformalAlgebra.__init__(self, R, s_coeff, names=,
      index_set=, weights=, parity=)]: reads and writes [self] only through
      [graded_init] below. *)
  graded_init_base :
    option (list string) → Base → Ring → gmap (string * string) scoeff →
    Names → IndexSet → option (list Qc) → option (list Z) →
    Exn + (option (list string) * Base);
  (** [self.gens()], [self.base_ring()] and the [repr] of their results *)
  gens : Base → list Element;
  base_ring : Base → Ring;
  repr_element : Element → string;
  repr_ring : Ring → string;
}.

Section Class.
Context {F : Framework}.

(** An instance of the class: the attribute [_latex_names] that the class
    itself assigns (unset on a fresh instance) and the state of the base
    classes. *)
Record instance : Type := Instance {
  _latex_names : option (list string);
  base : Base;
}.

Definition blank : instance := Instance None uninit.

(** The base constructor on an instance. *)
Definition graded_init (self : instance) (R : Ring)
    (s_coeff : gmap (string * string) scoeff) (names : Names)
    (index_set : IndexSet) (weights : option (list Qc))
    (parity : option (list Z)) : Exn + instance :=
  match graded_init_base (_latex_names self) (base self) R s_coeff names
          index_set weights parity with
  | inl e => inl e
  | inr (l, b) => inr (Instance l b)
  end.

(** ** Programs over the calls of [__init__] *)

(** The steps [__init__] takes: one iteration of its generator expression,
    the assignment to [self._latex_names], and the two calls out. *)
Inductive call : Type → Type :=
  | Iterate : call unit
  | SetLatexNames (l : list string) : call unit
  | Standardize (names : option names_arg) (index_set : option IndexSet)
      (ngens : Z) : call (Names * IndexSet)
  | GradedInit (R : Ring) (s_coeff : gmap (string * string) scoeff)
      (names : Names) (index_set : IndexSet) (weights : option (list Qc))
      (parity : option (list Z)) : call unit.

Inductive prog (A : Type) : Type :=
  | Ret (a : A)
  | Do {X : Type} (c : call X) (k : X → prog A).
Global Arguments Ret {A} a.
Global Arguments Do {A X} c k.

Fixpoint prog_bind {A B : Type} (f : A → prog B) (p : prog A) : prog B :=
  match p with
  | Ret a => f a
  | Do c k => Do c (λ x, prog_bind f (k x))
  end.

Global Instance prog_ret : MRet prog := λ A a, Ret a.
Global Instance prog_mbind : MBind prog := λ A B f p, prog_bind f p.

Definition perform {X : Type} (c : call X) : prog X := Do c Ret.

(** The record of a step, as kept in the log of a run. *)
Inductive event : Type :=
  | EIterate
  | ESetLatexNames (l : list string)
  | EStandardize (names : option names_arg) (index_set : option IndexSet)
      (ngens : Z)
  | EGradedInit (R : Ring) (s_coeff : gmap (string * string) scoeff)
      (names : Names) (index_set : IndexSet) (weights : option (list Qc))
      (parity : option (list Z)).

Definition event_of {X : Type} (c : call X) : event :=
  match c with
  | Iterate => EIterate
  | SetLatexNames l => ESetLatexNames l
  | Standardize n i g => EStandardize n i g
  | GradedInit R d n i w p => EGradedInit R d n i w p
  end.

(** What a step does to [self], and what it returns or raises. *)
Definition handle {X : Type} (c : call X) (self : instance) :
    (Exn + X) * instance :=
  match c in call X return (Exn + X) * instance with
  | Iterate => (inr (), self)
  | SetLatexNames l => (inr (), Instance (Some l) (base self))
  | Standardize n i g => (standardize_names_index_set n i g, self)
  | GradedInit R d n i w p =>
      match graded_init self R d n i w p with
      | inl e => (inl e, self)
      | inr self' => (inr (), self')
      end
  end.

(** A run: the result or the exception that ended it, [self] afterwards,
    and the log of the steps taken.  Nothing catches an exception, so the
    first one ends the run. *)
Fixpoint run {A : Type} (p : prog A) (self : instance) :
    (Exn + A) * instance * list event :=
  match p with
  | Ret a => (inr a, self, [])
  | Do c k =>
      match handle c self with
      | (inl e, self') => (inl e, self', [event_of c])
      | (inr x, self') =>
          let '(r, self'', log) := run (k x) self' in
          (r, self'', event_of c :: log)
      end
  end.

(** [tuple(body(i) for i in it)]. *)
Fixpoint genexpr {A : Type} (body : Z → A) (it : list Z) : prog (list A) :=
  match it with
  | [] => mret []
  | i :: it' =>
      _ ← perform Iterate;
      xs ← genexpr body it';
      mret (body i :: xs)
  end.

(** ** The class *)

(** [AbelianLieConformalAlgebra.__init__(self, R, ngens=1, weights=None,
    parity=None, names=None, index_set=None)]. *)
Definition __init__ (R : Ring) (ngens : Z) (weights : option (list Qc))
    (parity : option (list Z)) (names : option names_arg)
    (index_set : option IndexSet) : prog unit :=
  names ←
    (if is_None names && is_None index_set then
       latex_names ← genexpr latex_label (range ngens);
       _ ← perform (SetLatexNames latex_names);
       mret (Some (NameStr "a"))
     else mret names);
  '(names, index_set) ← perform (Standardize names index_set ngens);
  let abeliandict : gmap (string * string) scoeff := ∅ in
  perform (GradedInit R abeliandict names index_set weights parity).

(** [AbelianLieConformalAlgebra._repr_(self)]. *)
Definition _repr_ (self : instance) : string :=
  "The Abelian Lie conformal algebra with generators "
  +:+ tuple_repr (repr_element <$> gens (base self))
  +:+ " over " +:+ repr_ring (base_ring (base self)).

(** The labels that the default branch stores, the names that reach the
    standardization call, [self] at that call, and the log up to it. *)
Definition default_names (names : option names_arg)
    (index_set : option IndexSet) : bool :=
  is_None names && is_None index_set.

Definition default_labels (ngens : Z) : list string :=
  latex_label <$> range ngens.

Definition names_passed (names : option names_arg)
    (index_set : option IndexSet) : option names_arg :=
  if default_names names index_set then Some (NameStr "a") else names.

Definition self_passed (ngens : Z) (names : option names_arg)
    (index_set : option IndexSet) (self : instance) : instance :=
  if default_names names index_set
  then Instance (Some (default_labels ngens)) (base self) else self.

Definition log_before (ngens : Z) (names : option names_arg)
    (index_set : option IndexSet) : list event :=
  if default_names names index_set
  then replicate (Z.to_nat ngens) EIterate
         ++ [ESetLatexNames (default_labels ngens)]
  else [].

(** Kinds of events. *)
Definition passes_empty_table (ev : event) : Prop :=
  match ev with
  | EGradedInit _ s_coeff _ _ _ _ => s_coeff = ∅
  | _ => True
  end.

Definition is_graded_init (ev : event) : bool :=
  match ev with EGradedInit _ _ _ _ _ _ => true | _ => false end.

Definition is_set_latex_names (ev : event) : bool :=
  match ev with ESetLatexNames _ => true | _ => false end.

Definition is_call_out (ev : event) : bool :=
  match ev with
  | EStandardize _ _ _ | EGradedInit _ _ _ _ _ _ => true
  | _ => false
  end.

(** The log of [__init__] after the standardization call. *)
Definition log_after (R : Ring) (ngens : Z) (weights : option (list Qc))
    (parity : option (list Z)) (names : option names_arg)
    (index_set : option IndexSet) : list event :=
  match standardize_names_index_set (names_passed names index_set)
          index_set ngens with
  | inl _ => []
  | inr (n, i) => [EGradedInit R ∅ n i weights parity]
  end.

(** ** Calling the class *)

(** Instances live in a heap, at the address the call returned. *)
Definition loc : Type := nat.
Definition heap : Type := gmap loc instance.

(** Modelled from the spec: the call of the class,
    [AbelianLieConformalAlgebra(R, ngens, weights, parity, names,
    index_set)], which the class inherits from base classes that are not
    part of this file.  Following the spec, a construction makes one new
    structure object: a blank instance is allocated, [__init__] runs on it,
    and it is returned.  When [__init__] raises, nothing is constructed and
    the heap is as before. *)
Definition Abelian (R : Ring) (ngens : Z) (weights : option (list Qc))
    (parity : option (list Z)) (names : option names_arg)
    (index_set : option IndexSet) (h : heap) : (Exn + loc) * heap :=
  let self := fresh (dom h) in
  match run (__init__ R ngens weights parity names index_set) blank with
  | (inl e, _, _) => (inl e, h)
  | (inr _, obj, _) => (inr self, <[self := obj]> h)
  end.

End Class.

Global Arguments instance : clear implicits.
Global Arguments heap : clear implicits.

(** ** The collaborators, from their contracts *)

Module Contract.

(** Modelled from the spec: the errors of the two collaborators, whose code
    is not part of this file.  [InconsistentGeneratorSpecification] is the
    validation error of the standardization routine; [WeightsLength] is the
    delegate enforcing that the weights are one per generator. *)
Inductive exn : Type :=
  | InconsistentGeneratorSpecification
  | WeightsLength.

(** Modelled from the spec: the generator names that a [names] argument
    stands for (the body of [standardize_names_index_set] is missing).  A
    tuple is taken as it is; a single stem names one generator by itself
    and [ngens] generators by the stem followed by their position, as in
    the class's examples [(a,)] and [(a0, a1)]. *)
Definition names_of (names : names_arg) (ngens : Z) : list string :=
  match names with
  | NameTuple l => l
  | NameStr stem =>
      if bool_decide (ngens = 1) then [stem]
      else (λ i, stem +:+ pretty i) <$> range ngens
  end.

(** Modelled from the spec: [standardize(names, indexSet, ngens)], missing
    from the sources.  It returns a pair in which every generator has one
    name and one index, and raises the validation error when the names and
    the indices disagree in count or contain duplicates.  An index set given
    alone names the generators; names given alone index them. *)
Definition standardize (names : option names_arg)
    (index_set : option (list string)) (ngens : Z) :
    exn + (list string * list string) :=
  match names, index_set with
  | None, None => inl InconsistentGeneratorSpecification
  | Some n, None =>
      let l := names_of n ngens in
      if bool_decide (NoDup l) then inr (l, l)
      else inl InconsistentGeneratorSpecification
  | None, Some ix =>
      if bool_decide (NoDup ix) then inr (ix, ix)
      else inl InconsistentGeneratorSpecification
  | Some n, Some ix =>
      let l := names_of n ngens in
      if bool_decide (NoDup l ∧ NoDup ix ∧ length l = length ix)
      then inr (l, ix)
      else inl InconsistentGeneratorSpecification
  end.

(** Modelled from the spec: the value of a bracket, a family of elements
    indexed by the order of the pole; each element gives the coefficients of
    the derivatives [T^k g] of the generators.  The empty family is the zero
    bracket, printed [{}]. *)
Definition bracket_value : Type := gmap nat (gmap (string * nat) Qc).

(** Modelled from the spec: the graded structure that the missing base
    class builds, with the data its accessors [generators()],
    [centralElements()] and [structureCoefficients()] return, the base ring
    (kept by its textual form), and the weight and parity assignments. *)
Record GradedStructure : Type := {
  gs_base_ring : string;
  generators : list string;
  gs_index_set : list string;
  structure_coefficients : gmap (string * string) bracket_value;
  central_elements : list string;
  gs_weights : list Qc;
  gs_parity : option (list Z);
}.

(** Modelled from the spec: [initGraded(baseRing, relationsTable, names,
    indexSet, weights, parity)], the missing constructor of the base class.
    It keeps the table it is given, names no central element, gives every
    generator the weight 1 when no weights are passed, and keeps the parity
    as passed (none: not super-graded).  As the spec says of [weights],
    their number must be the number of generators, and it is this
    constructor that enforces it.  The spec says nothing of what it does
    with [_latex_names]; here they pass through. *)
Definition initGraded (latex_names : option (list string))
    (old : option GradedStructure) (R : string)
    (table : gmap (string * string) bracket_value)
    (names index_set : list string) (weights : option (list Qc))
    (parity : option (list Z)) :
    exn + (option (list string) * option GradedStructure) :=
  let w := default (replicate (length names) 1%Qc) weights in
  if bool_decide (length w = length names) then
    inr (latex_names,
         Some {| gs_base_ring := R; generators := names;
                 gs_index_set := index_set; structure_coefficients := table;
                 central_elements := []; gs_weights := w;
                 gs_parity := parity |})
  else inl WeightsLength.

Section Bracket.
(** The action of the derivative orders [m] and [n] on a tabulated bracket:
    the spec does not describe it, so it stays a parameter. *)
Variable sesquilinear : nat → nat → bracket_value → bracket_value.

(** Modelled from the spec: [bracket(T^m a, T^n b)] of the missing base
    class, which reads a pair without an entry in the table as a bracket
    that is identically zero. *)
Definition bracket (L : GradedStructure) (m : nat) (a : string) (n : nat)
    (b : string) : bracket_value :=
  match structure_coefficients L !! (a, b) with
  | None => ∅
  | Some v => sesquilinear m n v
  end.
End Bracket.

(** Modelled from the spec: the collaborators above as a [Framework].  An
    instance whose base constructor has not run has no structure, hence no
    generators and no base ring to print. *)
Global Instance framework : Framework := {|
  Ring := string;
  IndexSet := list string;
  Names := list string;
  Exn := exn;
  Element := string;
  scoeff := bracket_value;
  Base := option GradedStructure;
  uninit := None;
  standardize_names_index_set := standardize;
  graded_init_base := initGraded;
  gens := λ b, from_option generators [] b;
  base_ring := λ b, from_option gs_base_ring "" b;
  repr_element := id;
  repr_ring := id;
|}.

(** The class's own example [lie_conformal_algebras.Abelian(QQ, 2)], as
    these collaborators build it. *)
Definition abelian_QQ_2 : instance framework :=
  Instance (Some ["a_{0}"; "a_{1}"])
    (Some {| gs_base_ring := "Rational Field"; generators := ["a0"; "a1"];
             gs_index_set := ["a0"; "a1"]; structure_coefficients := ∅;
             central_elements := []; gs_weights := [1%Qc; 1%Qc];
             gs_parity := None |}).

End Contract.

(** ** A collaborator that refuses *)

(** A framework whose standardization routine raises on every argument and
    whose base constructor leaves the instance alone: the least that
    exercises the error path of [__init__]. *)
Definition refusing : Framework := {|
  Ring := unit;
  IndexSet := unit;
  Names := unit;
  Exn := string;
  Element := unit;
  scoeff := unit;
  Base := unit;
  uninit := ();
  standardize_names_index_set := λ _ _ _, inl "refused";
  graded_init_base := λ l b _ _ _ _ _ _, inr (l, b);
  gens := λ _, [];
  base_ring := λ _, ();
  repr_element := λ _, "";
  repr_ring := λ _, "";
|}.

(** ** Runs of [__init__] *)

Section Runs.
Context {F : Framework}.

Lemma run_bind {A B : Type} (p : prog A) (f : A → prog B) (self : instance F) :
  run (p ≫= f) self =
    match run p self with
    | (inl e, self', log) => (inl e, self', log)
    | (inr a, self', log) =>
        let '(r, self'', log') := run (f a) self' in (r, self'', log ++ log')
    end.
Proof.
  revert self. induction p as [a | X c k IH]; intros self.
  - change (Ret a ≫= f) with (f a). simpl.
    by destruct (run (f a) self) as [[r s] l].
  - change (Do c k ≫= f) with (Do c (λ x, k x ≫= f)). simpl.
    destruct (handle c self) as [[e | x] self']; [done |].
    rewrite IH. destruct (run (k x) self') as [[[e | a] s] l]; [done |].
    by destruct (run (f a) s) as [[r s'] l'].
Qed.

Lemma run_genexpr {A : Type} (body : Z → A) (it : list Z) (self : instance F) :
  run (genexpr body it) self =
    (inr (body <$> it), self, replicate (length it) EIterate).
Proof.
  induction it as [| i it IH]; [done |].
  change (genexpr body (i :: it))
    with (perform Iterate ≫= λ _, genexpr body it ≫= λ xs, mret (body i :: xs)).
  rewrite run_bind. simpl. rewrite run_bind, IH. simpl.
  by rewrite (right_id_L [] (++)).
Qed.

(** The whole run of [__init__], case by case on what the collaborators
    answer. *)
Lemma run_init R ngens weights parity names index_set (self : instance F) :
  run (__init__ R ngens weights parity names index_set) self =
    let names' := names_passed names index_set in
    let self' := self_passed ngens names index_set self in
    let log := log_before ngens names index_set
                 ++ [EStandardize names' index_set ngens] in
    match standardize_names_index_set names' index_set ngens with
    | inl e => (inl e, self', log)
    | inr (n, i) =>
        let log' := log ++ [EGradedInit R ∅ n i weights parity] in
        match graded_init self' R ∅ n i weights parity with
        | inl e => (inl e, self', log')
        | inr self'' => (inr (), self'', log')
        end
    end.
Proof.
  unfold __init__, names_passed, self_passed, log_before, default_names,
    default_labels, range.
  rewrite run_bind.
  destruct (is_None names && is_None index_set).
  - rewrite run_bind, run_genexpr, length_seqZ. simpl.
    destruct (standardize_names_index_set _ _ _) as [e | [n i]]; simpl;
      [done |].
    destruct (graded_init _ _ _ _ _ _ _); simpl;
      by rewrite <- !(assoc_L (++)).
  - simpl.
    destruct (standardize_names_index_set _ _ _) as [e | [n i]]; simpl;
      [done |].
    by destruct (graded_init _ _ _ _ _ _ _).
Qed.

Lemma init_log R ngens weights parity names index_set (self : instance F) :
  (run (__init__ R ngens weights parity names index_set) self).2 =
    log_before ngens names index_set
      ++ EStandardize (names_passed names index_set) index_set ngens
      :: log_after R ngens weights parity names index_set.
Proof.
  rewrite run_init. unfold log_after. cbv zeta.
  destruct (standardize_names_index_set _ _ _) as [e | [n i]]; [done |].
  destruct (graded_init _ _ _ _ _ _ _); simpl;
    by rewrite <- (assoc_L (++)).
Qed.

Lemma Abelian_unfold R ngens weights parity names index_set (h : heap F) :
  Abelian R ngens weights parity names index_set h =
    match standardize_names_index_set (names_passed names index_set)
            index_set ngens with
    | inl e => (inl e, h)
    | inr (n, i) =>
        match graded_init (self_passed ngens names index_set blank) R ∅ n i
                weights parity with
        | inl e => (inl e, h)
        | inr obj => (inr (fresh (dom h)), <[fresh (dom h) := obj]> h)
        end
    end.
Proof.
  unfold Abelian. rewrite run_init. cbv zeta.
  destruct (standardize_names_index_set _ _ _) as [e | [n i]]; [done |].
  by destruct (graded_init _ _ _ _ _ _ _).
Qed.

Lemma fresh_loc_unused (h : heap F) : h !! fresh (dom h) = None.
Proof. unfold heap, loc in *. apply not_elem_of_dom, is_fresh. Qed.

Lemma default_names_spec (names : option names_arg)
    (index_set : option IndexSet) :
  default_names names index_set = true ↔ names = None ∧ index_set = None.
Proof. destruct names, index_set; simpl; split; (done || by intros [??]). Qed.

Lemma default_labels_length ngens :
  length (default_labels ngens) = Z.to_nat ngens.
Proof. unfold default_labels, range. by rewrite length_fmap, length_seqZ. Qed.

Lemma default_labels_lookup ngens i :
  0 ≤ i < ngens →
  default_labels ngens !! Z.to_nat i = Some ("a_{" +:+ pretty i +:+ "}").
Proof.
  intros Hi. unfold default_labels, range.
  rewrite list_lookup_fmap, lookup_seqZ_lt by lia.
  rewrite Z2Nat.id by lia. done.
Qed.

End Runs.

(** ** The class on its own: properties that hold for every framework *)

Section Claims.
Context {F : Framework}.

(** C3 (as amended): no error starts in the class, and it catches none.
    When the standardization call raises [e], [__init__] ends with the same
    [e], the base constructor is never called and the base part of [self]
    is untouched: nothing is constructed.  When the standardization call
    returns, the outcome is the outcome of the base constructor: its error
    comes back as it is, and without one [__init__] succeeds with the
    instance the base constructor made.  The class itself checks nothing
    about the ring, the weights or the parity. *)
Theorem errors_come_from_collaborators R ngens weights parity names
    index_set (self : instance F) :
  let init := __init__ R ngens weights parity names index_set in
  let names' :=
    if is_None names && is_None index_set
    then Some (NameStr "a") else names in
  let self' :=
    if is_None names && is_None index_set
    then Instance (Some (latex_label <$> range ngens)) (base self)
    else self in
  match standardize_names_index_set names' index_set ngens with
  | inl e =>
      (run init self).1.1 = inl e ∧
      Forall (λ ev, is_graded_init ev = false) (run init self).2 ∧
      base (run init self).1.2 = base self
  | inr (n, i) =>
      match graded_init self' R ∅ n i weights parity with
      | inl e => (run init self).1.1 = inl e
      | inr obj => (run init self).1 = (inr (), obj)
      end
  end.
Proof.
  cbv zeta. rewrite init_log, run_init. cbv zeta.
  unfold log_after, names_passed, self_passed, default_names, default_labels.
  destruct (standardize_names_index_set _ _ _) as [e | [n i]].
  - split_and!; [done | | by destruct (is_None names && is_None index_set)].
    apply Forall_app. split; [| by repeat constructor].
    unfold log_before, default_names.
    destruct (is_None names && is_None index_set); [| done].
    apply Forall_app. split; [| by repeat constructor].
    by apply Forall_replicate.
  - by destruct (graded_init _ _ _ _ _ _ _).
Qed.

(** C4: the default branch is taken exactly when [names] and [index_set]
    are both [None].  Then the class stores the labels [a_{i}], one for each
    [i] of [range(ngens)] and in that order, and only afterwards calls the
    standardization routine, with the stem ['a'] for names.  Otherwise it
    stores nothing and the call gets [names] and [index_set] as they came. *)
Theorem default_names_iff_both_absent R ngens weights parity names index_set
    (self : instance F) :
  let log := (run (__init__ R ngens weights parity names index_set) self).2 in
  (Exists (λ ev, is_set_latex_names ev = true) log
     ↔ names = None ∧ index_set = None) ∧
  (names = None ∧ index_set = None →
     ∃ rest, log = replicate (Z.to_nat ngens) EIterate
                     ++ ESetLatexNames (default_labels ngens)
                     :: EStandardize (Some (NameStr "a")) None ngens
                     :: rest) ∧
  (¬ (names = None ∧ index_set = None) →
     ∃ rest, log = EStandardize names index_set ngens :: rest) ∧
  length (default_labels ngens) = Z.to_nat ngens ∧
  (∀ i, 0 ≤ i < ngens →
     default_labels ngens !! Z.to_nat i = Some ("a_{" +:+ pretty i +:+ "}")).
Proof.
  cbv zeta. rewrite init_log.
  assert (Hafter : Forall (λ ev, is_set_latex_names ev = false)
            (EStandardize (names_passed names index_set) index_set ngens
               :: log_after R ngens weights parity names index_set)).
  { unfold log_after.
    destruct (standardize_names_index_set _ _ _) as [e | [n i]];
      by repeat constructor. }
  split_and!.
  - rewrite <- default_names_spec. unfold log_before.
    destruct (default_names names index_set) eqn:Hd.
    + split; [done | intros _].
      apply Exists_app. left. apply Exists_app. right. by left.
    + split; [| done]. simpl. intros Hex.
      apply Exists_exists in Hex as (ev & Hin & Hev).
      rewrite Forall_forall in Hafter. specialize (Hafter ev Hin). congruence.
  - intros [-> ->]. unfold log_before, names_passed. simpl.
    eexists. by rewrite <- (assoc_L (++)).
  - intros Hn. unfold log_before, names_passed.
    destruct (default_names names index_set) eqn:Hd.
    + by apply default_names_spec in Hd.
    + by eexists.
  - apply default_labels_length.
  - apply default_labels_lookup.
Qed.

(** C9: [__init__] always comes to an end, with a result or an error, after
    at most [ngens + 3] steps: one per iteration of the generator
    expression, one assignment, and the two calls out.  Its steps are of
    these kinds only; the collaborators are taken as total functions. *)
Theorem construction_work_bounded R ngens weights parity names index_set
    (self : instance F) :
  ∃ r self' log,
    run (__init__ R ngens weights parity names index_set) self
      = (r, self', log) ∧
    (length log ≤ Z.to_nat ngens + 3)%nat ∧
    (length (filter (λ ev, is_call_out ev = true) log) ≤ 2)%nat ∧
    (length log ≤
       if default_names names index_set then Z.to_nat ngens + 3 else 2)%nat.
Proof.
  destruct (run (__init__ R ngens weights parity names index_set) self)
    as [[r self'] log] eqn:Hrun.
  exists r, self', log. split; [done |].
  assert (Hlog := init_log R ngens weights parity names index_set self).
  rewrite Hrun in Hlog. simpl in Hlog. subst log.
  assert (Hafter : (length (log_after R ngens weights parity names index_set)
                      ≤ 1)%nat).
  { unfold log_after.
    destruct (standardize_names_index_set _ _ _) as [e | [n i]]; simpl; lia. }
  assert (Hbefore : filter (λ ev, is_call_out ev = true)
                      (log_before ngens names index_set) = []).
  { unfold log_before. destruct (default_names names index_set); [| done].
    rewrite filter_app.
    assert (Hrep : ∀ k, filter (λ ev, is_call_out ev = true)
                          (replicate k EIterate) = []).
    { induction k as [| k IH]; [done |]. simpl.
      rewrite filter_cons_False; [done | by simpl]. }
    rewrite Hrep. by rewrite filter_cons_False. }
  split_and!.
  - rewrite length_app. simpl. unfold log_before.
    destruct (default_names names index_set); simpl; [| lia].
    rewrite length_app, length_replicate. simpl. lia.
  - rewrite filter_app, Hbefore, filter_cons_True by done. simpl.
    pose proof (length_filter (λ ev, is_call_out ev = true)
                  (log_after R ngens weights parity names index_set)).
    lia.
  - rewrite length_app. simpl. unfold log_before.
    destruct (default_names names index_set); simpl; [| lia].
    rewrite length_app, length_replicate. simpl. lia.
Qed.

(** C10: the class does not check [ngens].  With [ngens = 0] and neither
    names nor an index set, it stores the empty tuple of labels and calls
    the standardization routine with the stem ['a'] and [ngens = 0]; what
    comes back, result or error, is the collaborators' alone. *)
Theorem zero_generators_not_rejected R weights parity (self : instance F) :
  let self' := Instance (Some []) (base self) in
  let log := [ESetLatexNames []; EStandardize (Some (NameStr "a")) None 0] in
  run (__init__ R 0 weights parity None None) self =
    match standardize_names_index_set (Some (NameStr "a")) None 0 with
    | inl e => (inl e, self', log)
    | inr (n, i) =>
        let log' := log ++ [EGradedInit R ∅ n i weights parity] in
        match graded_init self' R ∅ n i weights parity with
        | inl e => (inl e, self', log')
        | inr self'' => (inr (), self'', log')
        end
    end.
Proof. by rewrite run_init. Qed.

End Claims.

(** ** The class over the collaborators' contracts *)

Section ContractClaims.
Import Contract.
Local Existing Instance Contract.framework.

Lemma append_assoc (s1 s2 s3 : string) :
  (s1 +:+ s2) +:+ s3 = s1 +:+ s2 +:+ s3.
Proof.
  induction s1 as [| c s1 IH]; [done |].
  change (String c ((s1 +:+ s2) +:+ s3) = String c (s1 +:+ s2 +:+ s3)).
  by rewrite IH.
Qed.

Lemma length_append (s1 s2 : string) :
  String.length (s1 +:+ s2) = (String.length s1 + String.length s2)%nat.
Proof.
  induction s1 as [| c s1 IH]; [done |].
  change (S (String.length (s1 +:+ s2))
            = S (String.length s1 + String.length s2)).
  by rewrite IH.
Qed.

Lemma append_nil_r (s : string) : s +:+ "" = s.
Proof.
  induction s as [| c s IH]; [done |].
  change (String c (s +:+ "") = String c s). by rewrite IH.
Qed.

Lemma join_at (rs : list string) (k : nat) (r : string) :
  rs !! k = Some r →
  ∃ before after,
    join ", " rs = before +:+ r +:+ after ∧
    String.length before
      = sum_list ((λ s, String.length s + 2)%nat <$> take k rs) ∧
    (S k = length rs → after = "") ∧
    (S k ≠ length rs → ∃ rest, after = ", " +:+ rest).
Proof.
  revert k. induction rs as [| r0 rs IH]; intros k Hk; [done |].
  destruct k as [| k].
  - injection Hk as ->. destruct rs as [| r1 rs].
    + exists "", "". split_and!; [| done | done | done].
      change (r = r +:+ ""). by rewrite append_nil_r.
    + exists "", (", " +:+ join ", " (r1 :: rs)).
      split_and!; [done | done | done |]. intros _. by eexists.
  - destruct rs as [| r1 rs]; [done |].
    destruct (IH k Hk) as (b & a & Hj & Hlen & Hlast & Hmid).
    exists (r0 +:+ ", " +:+ b), a. split_and!.
    + change (join ", " (r0 :: r1 :: rs))
        with (r0 +:+ ", " +:+ join ", " (r1 :: rs)).
      by rewrite Hj, !append_assoc.
    + rewrite !length_append, Hlen.
      change (take (S k) (r0 :: r1 :: rs)) with (r0 :: take k (r1 :: rs)).
      rewrite fmap_cons. simpl. lia.
    + intros Hl. apply Hlast. simpl in *. lia.
    + intros Hl. apply Hmid. simpl in *. lia.
Qed.

Lemma tuple_repr_at (rs : list string) (k : nat) (r : string) :
  rs !! k = Some r →
  ∃ before after,
    tuple_repr rs = "(" +:+ before +:+ r +:+ after ∧
    String.length before
      = sum_list ((λ s, String.length s + 2)%nat <$> take k rs) ∧
    (S k = length rs →
     after = if decide (length rs = 1%nat) then ",)" else ")") ∧
    (S k ≠ length rs → ∃ rest, after = ", " +:+ rest).
Proof.
  intros Hk. destruct rs as [| r0 [| r1 rs]]; [done | |].
  - destruct k as [| k]; [| done]. injection Hk as ->.
    exists "", ",)". by split_and!.
  - destruct (join_at _ _ _ Hk) as (b & a & Hj & Hlen & Hlast & Hmid).
    exists b, (a +:+ ")"). split_and!; [| done | |].
    + unfold tuple_repr. by rewrite Hj, !append_assoc.
    + intros Hl. by rewrite (Hlast Hl).
    + intros Hl. destruct (Hmid Hl) as [rest ->].
      exists (rest +:+ ")"). by rewrite !append_assoc.
Qed.

Lemma contract_graded_init (self : instance framework) R d n i w p obj :
  graded_init self R d n i w p = inr obj →
  _latex_names obj = _latex_names self ∧
  length (default (replicate (length n) 1%Qc) w) = length n ∧
  base obj =
    Some {| gs_base_ring := R; generators := n; gs_index_set := i;
            structure_coefficients := d; central_elements := [];
            gs_weights := default (replicate (length n) 1%Qc) w;
            gs_parity := p |}.
Proof.
  unfold graded_init. simpl. unfold initGraded.
  case_bool_decide as Hlen; [| done].
  intros [= <-]. done.
Qed.

Lemma contract_built R ngens weights parity names index_set
    (h : heap framework) l h' :
  Abelian R ngens weights parity names index_set h = (inr l, h') →
  ∃ obj n i,
    h' !! l = Some obj ∧
    standardize (names_passed names index_set) index_set ngens = inr (n, i) ∧
    length (default (replicate (length n) 1%Qc) weights) = length n ∧
    base obj =
      Some {| gs_base_ring := R; generators := n; gs_index_set := i;
              structure_coefficients := ∅; central_elements := [];
              gs_weights := default (replicate (length n) 1%Qc) weights;
              gs_parity := parity |}.
Proof.
  rewrite Abelian_unfold. simpl.
  destruct (standardize _ _ _) as [e | [n i]] eqn:Hs; [done |].
  destruct (graded_init _ _ _ _ _ _ _) as [e | obj] eqn:Hg; [done |].
  intros [= <- <-]. apply contract_graded_init in Hg as (_ & Hlen & Hbase).
  exists obj, n, i. unfold heap, loc in *. by rewrite lookup_insert_eq.
Qed.

Lemma names_of_stem_length stem ngens :
  1 ≤ ngens → length (names_of (NameStr stem) ngens) = Z.to_nat ngens.
Proof.
  intros Hn. unfold names_of. case_bool_decide as H1.
  - by subst.
  - unfold range. by rewrite length_fmap, length_seqZ.
Qed.

Lemma names_of_stem_NoDup stem ngens : NoDup (names_of (NameStr stem) ngens).
Proof.
  unfold names_of. case_bool_decide as H1.
  - apply NoDup_singleton.
  - apply NoDup_fmap_2; [| apply NoDup_seqZ].
    intros i j Hij. by apply (inj (String.append stem)), (inj pretty) in Hij.
Qed.

Lemma abelian_QQ_2_built (h : heap framework) :
  Abelian "Rational Field" 2 None None None None h =
    (inr (fresh (dom h)), <[fresh (dom h) := abelian_QQ_2]> h).
Proof. rewrite Abelian_unfold. reflexivity. Qed.

(** C3, as the spec words it, fails: with two default generators and one
    weight the standardization call returns, and [__init__] still ends with
    an error, the base constructor's refusal of the weights, which is not
    the validation error of the standardization call. *)
Lemma construction_fails_outside_standardization :
  standardize (Some (NameStr "a")) None 2 = inr (["a0"; "a1"], ["a0"; "a1"]) ∧
  (run (__init__ "Rational Field" 2 (Some [1%Qc]) None None None) blank).1.1
    = inl WeightsLength ∧
  WeightsLength ≠ InconsistentGeneratorSpecification.
Proof. split_and!; [reflexivity | reflexivity | discriminate]. Qed.

(** C1: the table handed to the base constructor is empty, whatever the
    arguments: every call of the base constructor in a run of [__init__]
    passes the empty dictionary.  On every structure that a construction
    returns, [structure_coefficients] is the empty mapping and
    [central_elements] the empty family. *)
Theorem structure_constants_empty :
  (∀ (F : Framework) (R : @Ring F) ngens weights parity names index_set
     (self : instance F),
     Forall passes_empty_table
       (run (__init__ R ngens weights parity names index_set) self).2) ∧
  (∀ R ngens weights parity names index_set (h : heap framework) l h',
     Abelian R ngens weights parity names index_set h = (inr l, h') →
     ∃ obj L, h' !! l = Some obj ∧ base obj = Some L ∧
       structure_coefficients L = ∅ ∧ central_elements L = []).
Proof.
  split.
  - intros F R ngens weights parity names index_set self.
    rewrite init_log. apply Forall_app. split.
    + unfold log_before. destruct (default_names names index_set); [| done].
      apply Forall_app. split; [by apply Forall_replicate |].
      by apply Forall_singleton.
    + apply Forall_cons. split; [done |]. unfold log_after.
      destruct (standardize_names_index_set _ _ _) as [e | [n i]]; [done |].
      by apply Forall_singleton.
  - intros R ngens weights parity names index_set h l h' Hbuild.
    apply contract_built in Hbuild as (obj & n & i & Hobj & _ & _ & Hbase).
    by eexists obj, _.
Qed.

Lemma structure_constants_empty_witness :
  ∃ obj L,
    (<[fresh (dom (∅ : heap framework)) := abelian_QQ_2]> ∅ : heap framework)
      !! fresh (dom (∅ : heap framework)) = Some obj ∧
    base obj = Some L ∧
    structure_coefficients L = ∅ ∧ central_elements L = [].
Proof.
  exact (proj2 structure_constants_empty _ _ _ _ _ _ _ _ _
           (abelian_QQ_2_built ∅)).
Defined.

(** C2: on every structure that a construction returns, the bracket of
    [T^m a] and [T^n b] is the zero bracket, for all generators [a] and [b]
    and all orders [m] and [n]. *)
Theorem brackets_vanish (sesquilinear : nat → nat → bracket_value → bracket_value)
    R ngens weights parity names index_set (h : heap framework) l h' :
  Abelian R ngens weights parity names index_set h = (inr l, h') →
  ∃ obj L, h' !! l = Some obj ∧ base obj = Some L ∧
    ∀ a b, a ∈ generators L → b ∈ generators L →
      ∀ m n, bracket sesquilinear L m a n b = ∅.
Proof.
  intros Hbuild.
  apply contract_built in Hbuild as (obj & n & i & Hobj & _ & _ & Hbase).
  eexists obj, _. split_and!; [done.. |].
  intros a b _ _ m k. unfold bracket. simpl. by rewrite lookup_empty.
Qed.

Lemma brackets_vanish_witness :
  ∃ obj L,
    (<[fresh (dom (∅ : heap framework)) := abelian_QQ_2]> ∅ : heap framework)
      !! fresh (dom (∅ : heap framework)) = Some obj ∧
    base obj = Some L ∧
    ∀ a b, a ∈ generators L → b ∈ generators L →
      ∀ m n, bracket (λ _ _ v, v) L m a n b = ∅.
Proof.
  exact (brackets_vanish (λ _ _ v, v) _ _ _ _ _ _ _ _ _
           (abelian_QQ_2_built ∅)).
Defined.

(** C5: for [ngens >= 1] and every other argument left at its default, the
    construction succeeds and the structure has exactly [ngens] generators,
    all different, each with the weight 1, and no parity. *)
Theorem default_construction R ngens (h : heap framework) :
  1 ≤ ngens →
  ∃ obj L,
    Abelian R ngens None None None None h
      = (inr (fresh (dom h)), <[fresh (dom h) := obj]> h) ∧
    base obj = Some L ∧
    length (generators L) = Z.to_nat ngens ∧
    NoDup (generators L) ∧
    gs_weights L = replicate (length (generators L)) 1%Qc ∧
    gs_parity L = None.
Proof.
  intros Hn. rewrite Abelian_unfold. simpl. unfold standardize.
  rewrite bool_decide_eq_true_2 by apply names_of_stem_NoDup.
  destruct (graded_init _ _ _ _ _ _ _) as [e | obj] eqn:Hg.
  { unfold graded_init in Hg. simpl in Hg. unfold initGraded in Hg. simpl in Hg.
    rewrite length_replicate, bool_decide_eq_true_2 in Hg by done. done. }
  apply contract_graded_init in Hg as (_ & _ & Hbase).
  eexists obj, _. split_and!; [done | done | | | done..]; simpl.
  - by apply names_of_stem_length.
  - apply names_of_stem_NoDup.
Qed.

Lemma default_construction_witness :
  ∃ obj L,
    Abelian "Rational Field" 3 None None None None ∅
      = (inr (fresh (dom (∅ : heap framework))),
         <[fresh (dom (∅ : heap framework)) := obj]> ∅) ∧
    base obj = Some L ∧
    length (generators L) = Z.to_nat 3 ∧
    NoDup (generators L) ∧
    gs_weights L = replicate (length (generators L)) 1%Qc ∧
    gs_parity L = None.
Proof. apply (default_construction "Rational Field" 3 ∅). lia. Defined.

(** C6: the text of a structure is ["The Abelian Lie conformal algebra with
    generators ("], the texts of its generators in their order, the closing
    of the tuple, [" over "] and the text of the base ring.  Without
    generators the tuple is [()].  Otherwise the text of the generator at
    position [k] stands right after the opening and the texts of the
    generators before it, each of those followed by the two characters
    [", "]; it is followed by [", "] when a generator comes after it, and by
    the closing ([")"], or [",)"] for a single generator), [" over "] and
    the ring when it is the last.  Two generators print as [(g0, g1)], and
    the structure that [__init__] makes for [ngens = 2] with default names
    over the rational field prints as in the class's own example. *)
Theorem repr_format :
  (∀ (F : Framework) (self : instance F),
     gens (base self) = [] →
     _repr_ self =
       "The Abelian Lie conformal algebra with generators () over "
       +:+ repr_ring (base_ring (base self))) ∧
  (∀ (F : Framework) (self : instance F) (k : nat) g,
     gens (base self) !! k = Some g →
     ∃ before after,
       _repr_ self = before +:+ repr_element g +:+ after ∧
       (∃ printed,
          before =
            "The Abelian Lie conformal algebra with generators (" +:+ printed) ∧
       String.length before =
         (String.length "The Abelian Lie conformal algebra with generators ("
          + sum_list ((λ g', String.length (repr_element g') + 2)
                        <$> take k (gens (base self))))%nat ∧
       (S k = length (gens (base self)) →
        after =
          (if decide (length (gens (base self)) = 1%nat) then ",)" else ")")
          +:+ " over " +:+ repr_ring (base_ring (base self))) ∧
       (S k ≠ length (gens (base self)) → ∃ rest, after = ", " +:+ rest)) ∧
  (∀ (F : Framework) (self : instance F) g0 g1,
     gens (base self) = [g0; g1] →
     _repr_ self =
       "The Abelian Lie conformal algebra with generators ("
       +:+ repr_element g0 +:+ ", " +:+ repr_element g1
       +:+ ") over " +:+ repr_ring (base_ring (base self))) ∧
  (∃ obj,
     (run (__init__ "Rational Field" 2 None None None None) blank).1
       = (inr (), obj) ∧
     _repr_ obj = "The Abelian Lie conformal algebra with generators (a0, a1) over Rational Field").
Proof.
  split_and!.
  - intros F self Hg. unfold _repr_. by rewrite Hg.
  - intros F self k g Hk. unfold _repr_.
    assert (Hk' : (repr_element <$> gens (base self)) !! k
                  = Some (repr_element g)) by by rewrite list_lookup_fmap, Hk.
    destruct (tuple_repr_at _ _ _ Hk')
      as (b & a & Ht & Hlen & Hlast & Hmid).
    rewrite length_fmap in Hlast, Hmid.
    rewrite <- fmap_take, <- list_fmap_compose in Hlen.
    exists ("The Abelian Lie conformal algebra with generators (" +:+ b),
      (a +:+ " over " +:+ repr_ring (base_ring (base self))).
    split_and!.
    + rewrite Ht, !append_assoc. reflexivity.
    + by exists b.
    + rewrite length_append, Hlen. reflexivity.
    + intros Hl. by rewrite (Hlast Hl).
    + intros Hl. destruct (Hmid Hl) as [rest ->].
      exists (rest +:+ " over " +:+ repr_ring (base_ring (base self))).
      by rewrite !append_assoc.
  - intros F self g0 g1 Hg. unfold _repr_, tuple_repr. rewrite Hg. simpl.
    by rewrite !append_assoc.
  - exists abelian_QQ_2. split; reflexivity.
Qed.

Lemma repr_format_witness :
  ∃ before after,
    _repr_ abelian_QQ_2 = before +:+ "a1" +:+ after ∧
    String.length before = 55%nat ∧
    after = ") over Rational Field".
Proof.
  destruct (proj1 (proj2 repr_format) framework abelian_QQ_2 1%nat "a1"
              eq_refl) as (b & a & Ht & _ & Hlen & Hlast & _).
  exists b, a. split_and!; [exact Ht | exact Hlen | exact (Hlast eq_refl)].
Defined.

Lemma default_names_iff_both_absent_witness :
  ∃ rest,
    (run (__init__ "Rational Field" 2 None None None None) blank).2 =
      replicate (Z.to_nat 2) EIterate
        ++ ESetLatexNames (default_labels 2)
        :: EStandardize (Some (NameStr "a")) None 2 :: rest.
Proof.
  apply (proj1 (proj2 (default_names_iff_both_absent (F := framework)
           "Rational Field" 2 None None None None blank))).
  split; reflexivity.
Defined.

End ContractClaims.

(** ** Further properties of [__init__] *)

Section Further.
Context {F : Framework}.

Lemma append_inj_r (t s1 s2 : string) : s1 +:+ t = s2 +:+ t → s1 = s2.
Proof.
  revert s2. induction s1 as [| c1 s1 IH]; intros [| c2 s2] Heq.
  - done.
  - apply (f_equal String.length) in Heq.
    change (String.length t = S (String.length (s2 +:+ t))) in Heq.
    rewrite length_append in Heq. lia.
  - apply (f_equal String.length) in Heq.
    change (S (String.length (s1 +:+ t)) = String.length t) in Heq.
    rewrite length_append in Heq. lia.
  - change (String c1 (s1 +:+ t) = String c2 (s2 +:+ t)) in Heq.
    injection Heq as -> Heq. f_equal. by apply IH.
Qed.

Lemma latex_label_inj : Inj (=) (=) latex_label.
Proof.
  intros i j Hij. unfold latex_label in Hij.
  apply (inj (String.append "a_{")) in Hij.
  by apply append_inj_r, (inj pretty) in Hij.
Qed.

Lemma filter_call_out_before ngens names (index_set : option IndexSet) :
  filter (λ ev, is_call_out ev = true) (log_before ngens names index_set)
    = [].
Proof.
  unfold log_before. destruct (default_names names index_set); [| done].
  rewrite filter_app, filter_cons_False, filter_nil by done.
  rewrite (right_id_L [] (++)).
  induction (Z.to_nat ngens) as [| k IH]; [done |]. simpl.
  by rewrite filter_cons_False.
Qed.

(** The calls out of a run, in order: one call of the standardization
    routine, then, when it returned, one call of the base constructor.  The
    base constructor receives the ring, the weights and the parity as they
    were given to [__init__], and for names and index set exactly the pair
    that the standardization routine returned. *)
Theorem calls_out_in_order R ngens weights parity names index_set
    (self : instance F) :
  filter (λ ev, is_call_out ev = true)
      (run (__init__ R ngens weights parity names index_set) self).2 =
    EStandardize (if is_None names && is_None index_set
                  then Some (NameStr "a") else names) index_set ngens
    :: match standardize_names_index_set
               (if is_None names && is_None index_set
                then Some (NameStr "a") else names) index_set ngens with
       | inl _ => []
       | inr (n, i) => [EGradedInit R ∅ n i weights parity]
       end.
Proof.
  rewrite init_log, filter_app, filter_call_out_before.
  rewrite filter_cons_True by done. simpl. f_equal.
  unfold log_after, names_passed, default_names.
  destruct (standardize_names_index_set _ _ _) as [e | [n i]]; [done |].
  by rewrite filter_cons_True.
Qed.

(** The labels that [__init__] stores are pairwise different: no two
    indices of [range(ngens)] get the same [a_{i}]. *)
Theorem stored_labels_distinct R ngens weights parity names index_set
    (self : instance F) :
  Forall (λ ev, match ev with ESetLatexNames l => NoDup l | _ => True end)
    (run (__init__ R ngens weights parity names index_set) self).2.
Proof.
  rewrite init_log. apply Forall_app. split.
  - unfold log_before. destruct (default_names names index_set); [| done].
    apply Forall_app. split; [by apply Forall_replicate |].
    apply Forall_singleton. unfold default_labels, range.
    pose proof latex_label_inj. apply NoDup_fmap_2; [done | apply NoDup_seqZ].
  - apply Forall_cons. split; [done |]. unfold log_after.
    destruct (standardize_names_index_set _ _ _) as [e | [n i]]; [done |].
    by apply Forall_singleton.
Qed.

(** The labels are assigned before the arguments are validated: when the
    standardization routine raises, [__init__] ends with that error and, if
    neither names nor an index set was given, [self._latex_names] already
    holds the labels; otherwise [self] is as it was. *)
Theorem refused_names_leave_labels R ngens weights parity names index_set
    (self : instance F) e :
  standardize_names_index_set
    (if is_None names && is_None index_set then Some (NameStr "a") else names)
    index_set ngens = inl e →
  (run (__init__ R ngens weights parity names index_set) self).1 =
    (inl e,
     if is_None names && is_None index_set
     then Instance (Some (latex_label <$> range ngens)) (base self)
     else self).
Proof.
  intros He. rewrite run_init. cbv zeta.
  unfold names_passed, self_passed, default_names, default_labels.
  by rewrite He.
Qed.

(** [ngens] is neither checked nor clamped: for [ngens <= 0] and neither
    names nor an index set, the generator expression does not iterate, the
    empty tuple of labels is stored, and the standardization routine gets
    [ngens] as it came. *)
Theorem nonpositive_ngens_stores_no_label R ngens weights parity
    (self : instance F) :
  ngens ≤ 0 →
  ∃ rest,
    (run (__init__ R ngens weights parity None None) self).2 =
      ESetLatexNames [] :: EStandardize (Some (NameStr "a")) None ngens
        :: rest.
Proof.
  intros Hn. rewrite init_log. unfold log_before, default_labels, range.
  simpl. replace (Z.to_nat ngens) with 0%nat by lia.
  rewrite seqZ_nil by lia. simpl. by eexists.
Qed.

End Further.

Lemma refused_names_leave_labels_witness :
  (run (__init__ (F := refusing) () 2 None None None None) blank).1 =
    (inl "refused", Instance (F := refusing) (Some ["a_{0}"; "a_{1}"]) ()).
Proof.
  exact (refused_names_leave_labels (F := refusing)
           () 2 None None None None blank "refused" eq_refl).
Defined.

Lemma nonpositive_ngens_stores_no_label_witness :
  ∃ rest,
    (run (__init__ (F := refusing) () (-3) None None None None) blank).2 =
      ESetLatexNames [] :: EStandardize (Some (NameStr "a")) None (-3)
        :: rest.
Proof.
  apply (nonpositive_ngens_stores_no_label (F := refusing)). lia.
Defined.
